(** * earedis: a logging facade over a redis client

    A shallow embedding of [main.go] (package [earedis]) and the properties
    of its reference-expansion helpers.

    The redis client ([rdb.Client]), the logger ([ealogger.Logger]) and
    [encoding/json] are external collaborators.  The client is an oracle
    over an arbitrary remote state, the decoder is a function of the payload
    and of the value it decodes into, and every probe and read of the store,
    every log line and every decode is recorded in a trace, oldest first. *)

From Stdlib Require Import List Ascii String ZArith Lia Bool.
Import ListNotations.
Local Open Scope string_scope.
Local Open Scope list_scope.

(** ** Go values *)

(** A Go slice is [nil] or a sequence; [None] is [nil], and [Some []] is
    the empty slice [make([]T, 0)]. *)
Definition slice (A : Type) : Type := option (list A).

Definition elems {A : Type} (s : slice A) : list A :=
  match s with
  | Some l => l
  | None => []
  end.

(** [append(s, x)]: the result is never [nil]. *)
Definition append {A : Type} (s : slice A) (x : A) : slice A :=
  Some (elems s ++ [x]).

(** [len] of a string counts its bytes. *)
Definition len (s : string) : nat := String.length s.

(** [time.Duration] counts nanoseconds. *)
Definition Duration : Type := Z.
Definition Second : Duration := 1000000000%Z.

(** [context.Context] as far as this package builds one. *)
Inductive Context : Type :=
| Background
| WithTimeout (parent : Context) (d : Duration).

Definition NewContextWithTimeout (parent : Context) (d : Duration) : Context :=
  WithTimeout parent d.

Module rdb.
Record Options : Type := {
  Addr : string;
  Username : string;
  Password : string;
  DB : Z
}.
End rdb.

(** [type Client = rdb.Client]: a handle, identified by the options it was
    made from. *)
Definition Client : Type := rdb.Options.
Definition NewClient (o : rdb.Options) : Client := o.

(** ** The package's data *)

Record ConnectConfig : Type := {
  Addr : string;
  User : string;
  Password : string;
  DB : Z;
  pingConnectionTTL : option Duration   (* [*time.Duration], [None] is nil *)
}.

(** [Service]: [c] stands for the configuration [s.c] points to, [client]
    is [nil] until [Init] installs a handle.  The logger [l] is the log
    lines of the trace. *)
Record Service : Type := {
  c : ConnectConfig;
  client : option Client;
  traceName : string
}.

Inductive Level : Type := InfoLevel | ErrorLevel.

Section Effects.
(** [Err] are the non-nil values of Go's [error]; [None] is [nil]. *)
Variable Err : Type.
Definition error : Type := option Err.

Definition isErr (e : error) : bool :=
  match e with
  | Some _ => true
  | None => false
  end.

Inductive LogArg : Type :=
| ArgString (s : string)
| ArgError (e : error).

Inductive Event : Type :=
| EvPing (cl : Client) (ctx : Context) (r : error)
| EvSMembers (cl : Client) (ctx : Context) (key : string)
             (r : slice string * error)
| EvGet (cl : Client) (ctx : Context) (key : string) (r : string * error)
| EvUnmarshal (data : string)
| EvLog (lvl : Level) (name : string) (msg : string) (args : list LogArg).

(** The remote state [CS] (store contents, connection, clock) and the
    events so far. *)
Variable CS : Type.

Record World : Type := {
  remote : CS;
  trace : list Event
}.

(** A call returns, or panics (a nil pointer is dereferenced). *)
Inductive Outcome (A : Type) : Type :=
| Done (a : A) (w : World)
| Panic (w : World).
Arguments Done {A} a w.
Arguments Panic {A} w.

Definition M (A : Type) : Type := World -> Outcome A.

Definition ret {A : Type} (a : A) : M A := fun w => Done a w.

Definition bind {A B : Type} (m : M A) (k : A -> M B) : M B :=
  fun w =>
    match m w with
    | Done a w' => k a w'
    | Panic w' => Panic w'
    end.

Definition panic {A : Type} : M A := fun w => Panic w.

Definition emit (e : Event) : M unit :=
  fun w => Done tt {| remote := remote w; trace := trace w ++ [e] |}.

(** [*p] *)
Definition deref {A : Type} (p : option A) : M A :=
  match p with
  | Some a => ret a
  | None => panic
  end.
End Effects.

Arguments Done {Err CS A} a w.
Arguments Panic {Err CS A} w.
Arguments ret {Err CS A} a _.
Arguments bind {Err CS A B} m k _.
Arguments panic {Err CS A} _.
Arguments deref {Err CS A} p _.
Arguments emit {Err CS} e _.
Arguments isErr {Err} e.
Arguments remote {Err CS} w.
Arguments trace {Err CS} w.
Arguments EvPing {Err} cl ctx r.
Arguments EvSMembers {Err} cl ctx key r.
Arguments EvGet {Err} cl ctx key r.
Arguments EvUnmarshal {Err} data.
Arguments EvLog {Err} lvl name msg args.
Arguments ArgString {Err} s.
Arguments ArgError {Err} e.

Declare Scope go_scope.
Delimit Scope go_scope with go.
Notation "x <- m ;; k" := (bind m (fun x => k))
  (at level 100, m at next level, right associativity) : go_scope.
Notation "' p <- m ;; k" := (bind m (fun x => let p := x in k))
  (at level 100, p pattern, m at next level, right associativity) : go_scope.
Notation "m ;;; k" := (bind m (fun _ => k))
  (at level 100, right associativity) : go_scope.
Local Open Scope go_scope.

(** ** External collaborators *)

(** The commands of [rdb.Client] the package issues.  Each answers from the
    remote state and may change it; [Result()] is the pair of the value and
    the error. *)
Class RedisClient (Err CS : Type) : Type := {
  client_Ping : Client -> Context -> CS -> error Err * CS;
  client_SMembers : Client -> Context -> string -> CS ->
                    (slice string * error Err) * CS;
  client_Get : Client -> Context -> string -> CS -> (string * error Err) * CS
}.

(** [json.Unmarshal(data, &v)] at element type [T]: the value left in [v]
    and the error.  [zero] is what [reflect.New(elemType).Elem()] holds. *)
Class JSONCodec (Err T : Type) : Type := {
  zero : T;
  json_Unmarshal : string -> T -> T * error Err
}.

(** ** The service *)

Section Service.
Context {Err CS : Type} {RC : RedisClient Err CS}.

Definition call_Ping (cl : Client) (ctx : Context) : M Err CS (error Err) :=
  fun w =>
    let (r, cs) := client_Ping cl ctx (remote w) in
    Done r {| remote := cs; trace := trace w ++ [EvPing cl ctx r] |}.

Definition call_SMembers (cl : Client) (ctx : Context) (key : string)
  : M Err CS (slice string * error Err) :=
  fun w =>
    let (r, cs) := client_SMembers cl ctx key (remote w) in
    Done r {| remote := cs; trace := trace w ++ [EvSMembers cl ctx key r] |}.

Definition call_Get (cl : Client) (ctx : Context) (key : string)
  : M Err CS (string * error Err) :=
  fun w =>
    let (r, cs) := client_Get cl ctx key (remote w) in
    Done r {| remote := cs; trace := trace w ++ [EvGet cl ctx key r] |}.

(** [s.l.InfoT(s.traceName, msg, args...)] and [s.l.ErrorT(...)] *)
Definition InfoT (s : Service) (msg : string) (args : list (LogArg Err))
  : M Err CS unit :=
  emit (EvLog InfoLevel (traceName s) msg args).

Definition ErrorT (s : Service) (msg : string) (args : list (LogArg Err))
  : M Err CS unit :=
  emit (EvLog ErrorLevel (traceName s) msg args).

(** [NewService]: a nil probe timeout becomes 30 seconds, written through
    the pointer [c]; the service keeps that pointer. *)
Definition NewService (c0 : ConnectConfig) (name : string) : Service :=
  let c1 :=
    match pingConnectionTTL c0 with
    | None =>
        let defaultPingConnectionTTL := (30 * Second)%Z in
        {| Addr := Addr c0; User := User c0; Password := Password c0;
           DB := DB c0; pingConnectionTTL := Some defaultPingConnectionTTL |}
    | Some _ => c0
    end in
  {| c := c1; client := None;
     traceName := ("[" ++ name ++ "_RedisService]")%string |}.

(** [Init]: the service after the call, and the error returned. *)
Definition Init (s : Service) : M Err CS (Service * error Err) :=
  let cl := NewClient {| rdb.Addr := Addr (c s); rdb.Username := User (c s);
                         rdb.Password := Password (c s); rdb.DB := DB (c s) |} in
  let s := {| c := c s; client := Some cl; traceName := traceName s |} in
  ttl <- deref (pingConnectionTTL (c s)) ;;
  let ctx := NewContextWithTimeout Background ttl in
  err <- call_Ping cl ctx ;;
  if isErr err then
    ErrorT s "Failed to connect to redis" [ArgError err] ;;;
    ret (s, err)
  else
    InfoT s "Successfully connected to redis" [] ;;;
    ret (s, None).

Definition Get (s : Service) (ctx : Context) (key : string)
  : M Err CS (string * error Err) :=
  cl <- deref (client s) ;;
  ' (result, err) <- call_Get cl ctx key ;;
  if isErr err || (len result =? 0)%nat then
    ErrorT s "Failed to get key" [ArgString key; ArgError err] ;;;
    ret (EmptyString, err)
  else
    ret (result, None).

(** The loop of [SMembersWithChild] over the members still to visit. *)
Fixpoint SMembersWithChild_loop (s : Service) (ctx : Context)
  (members : list string) (result : slice string) : M Err CS (slice string) :=
  match members with
  | [] => ret result
  | member :: rest =>
      ' (v, err) <- Get s ctx member ;;
      if isErr err || (len v =? 0)%nat then
        ErrorT s "Failed to get member" [ArgString member; ArgError err] ;;;
        SMembersWithChild_loop s ctx rest result
      else
        SMembersWithChild_loop s ctx rest (append result v)
  end.

Definition SMembersWithChild (s : Service) (ctx : Context) (key : string)
  : M Err CS (slice string * error Err) :=
  InfoT s "Get members child by key " [ArgString key] ;;;
  cl <- deref (client s) ;;
  ' (members, err) <- call_SMembers cl ctx key ;;
  if isErr err then
    ErrorT s "Failed to set members at key" [ArgString key; ArgError err] ;;;
    ret (None, err)
  else
    result <- SMembersWithChild_loop s ctx (elems members) (Some []) ;;
    ret (result, None).

Context {T : Type} {JC : JSONCodec Err T}.

Definition call_Unmarshal (data : string) (v : T) : M Err CS (T * error Err) :=
  emit (EvUnmarshal data) ;;;
  ret (json_Unmarshal data v).

(** The loop of [JSONSMembersWithChild]; [sliceValue] is the slice behind
    the caller's pointer.  The value returned is that slice at return. *)
Fixpoint JSONSMembersWithChild_loop (items : list string) (sliceValue : slice T)
  : M Err CS (slice T * error Err) :=
  match items with
  | [] => ret (sliceValue, None)
  | item :: rest =>
      ' (newElem, err) <- call_Unmarshal item zero ;;
      if isErr err then
        ret (sliceValue, err)
      else
        JSONSMembersWithChild_loop rest (append sliceValue newElem)
  end.

(** [JSONSMembersWithChild(ctx, key, v)] with [v] a pointer to a slice of
    [T]: the slice [*v] at return, and the error. *)
Definition JSONSMembersWithChild (s : Service) (ctx : Context) (key : string)
  (v : slice T) : M Err CS (slice T * error Err) :=
  ' (result, err) <- SMembersWithChild s ctx key ;;
  if isErr err then
    ErrorT s "Failed to set members at key" [ArgString key; ArgError err] ;;;
    ret (v, err)
  else
    JSONSMembersWithChild_loop (elems result) v.

(** [JSONGet(ctx, key, v)] with [v] a pointer to a [T]: [*v] at return, and
    the error. *)
Definition JSONGet (s : Service) (ctx : Context) (key : string) (v : T)
  : M Err CS (T * error Err) :=
  cl <- deref (client s) ;;
  ' (result, err) <- call_Get cl ctx key ;;
  if isErr err || (len result =? 0)%nat then
    ErrorT s "Failed to get key" [ArgString key; ArgError err] ;;;
    ret (v, err)
  else
    ' (v', err) <- call_Unmarshal result v ;;
    if isErr err then ret (v', err) else ret (v', None).

End Service.


(** ** Reading a trace, and the results the specification describes *)

Section Observations.
Context {Err : Type}.

(** The [GET] commands of a trace with their answers, oldest first. *)
Fixpoint gets (tr : list (Event Err)) : list (string * (string * error Err)) :=
  match tr with
  | [] => []
  | EvGet _ _ key r :: tr' => (key, r) :: gets tr'
  | _ :: tr' => gets tr'
  end.

(** The commands sent to the store, oldest first. *)
Definition is_command (ev : Event Err) : bool :=
  match ev with
  | EvPing _ _ _ | EvSMembers _ _ _ _ | EvGet _ _ _ _ => true
  | EvUnmarshal _ | EvLog _ _ _ _ => false
  end.

Definition commands (tr : list (Event Err)) : list (Event Err) :=
  filter is_command tr.

(** The payloads handed to [json.Unmarshal], oldest first. *)
Fixpoint unmarshals (tr : list (Event Err)) : list string :=
  match tr with
  | [] => []
  | EvUnmarshal data :: tr' => data :: unmarshals tr'
  | _ :: tr' => unmarshals tr'
  end.

(** The members a trace reports as skipped: one per error-level line
    [Failed to get member]. *)
Fixpoint reported (tr : list (Event Err)) : list string :=
  match tr with
  | [] => []
  | EvLog ErrorLevel _ msg (ArgString member :: _) :: tr' =>
      if (msg =? "Failed to get member")%string
      then member :: reported tr' else reported tr'
  | _ :: tr' => reported tr'
  end.

(** A member resolves when its get succeeds with a non-empty value. *)
Definition resolves (r : string * error Err) : bool :=
  negb (isErr (snd r)) && negb (len (fst r) =? 0)%nat.

(** The order-preserving subsequence of resolved non-empty values. *)
Definition resolved (answers : list (string * error Err)) : list string :=
  map fst (filter resolves answers).

Context {T : Type} {JC : JSONCodec Err T}.

(** A payload decodes when [json.Unmarshal] into a fresh element returns a
    nil error; [decode] is the element it leaves. *)
Definition decodes (item : string) : bool :=
  negb (isErr (snd (json_Unmarshal item zero))).

Definition decode (item : string) : T := fst (json_Unmarshal item zero).

(** The elements decoded before the first payload that fails. *)
Fixpoint decoded_prefix (items : list string) : list T :=
  match items with
  | [] => []
  | item :: rest =>
      if decodes item then decode item :: decoded_prefix rest else []
  end.

(** The payloads up to and including the first that fails. *)
Fixpoint attempted (items : list string) : list string :=
  match items with
  | [] => []
  | item :: rest => item :: (if decodes item then attempted rest else [])
  end.

(** The error of the first payload that fails, nil when none does. *)
Fixpoint first_failure (items : list string) : error Err :=
  match items with
  | [] => None
  | item :: rest =>
      if decodes item then first_failure rest
      else snd (json_Unmarshal item zero)
  end.

(** [append] repeated. *)
Definition append_all {A : Type} (s : slice A) (xs : list A) : slice A :=
  fold_left append xs s.

End Observations.

(** ** A mock store: the orders example *)

Module Mock.

Record Order : Type := { id : Z }.

Definition dq : string := String (Ascii.ascii_of_nat 34) EmptyString.

(** The payload of an order, an object with the one field [id]. *)
Definition head : string := ("{" ++ dq ++ "id" ++ dq ++ ":")%string.
Definition payload (n : string) : string := (head ++ n ++ "}")%string.

Fixpoint strip (p s : string) : option string :=
  match p, s with
  | EmptyString, _ => Some s
  | String a p', String b s' => if Ascii.eqb a b then strip p' s' else None
  | String _ _, EmptyString => None
  end.

Definition digit (a : Ascii.ascii) : option Z :=
  let n := Z.of_nat (Ascii.nat_of_ascii a) in
  if ((48 <=? n) && (n <=? 57))%Z then Some (n - 48)%Z else None.

Fixpoint number (s : string) (acc : Z) : Z * string :=
  match s with
  | String a s' =>
      match digit a with
      | Some d => number s' (10 * acc + d)%Z
      | None => (acc, s)
      end
  | EmptyString => (acc, s)
  end.

Definition parse (data : string) : option Order :=
  match strip head data with
  | Some (String a _ as rest) =>
      match digit a, number rest 0 with
      | Some _, (n, String "}"%char EmptyString) => Some {| id := n |}
      | _, _ => None
      end
  | _ => None
  end.

#[export] Instance codec : JSONCodec string Order := {|
  zero := {| id := 0 |};
  json_Unmarshal data v :=
    match parse data with
    | Some o => (o, None)
    | None => (v, Some "unexpected end of JSON input")
    end
|}.

(** The remote state counts the commands served.  The index [idx:orders]
    lists three orders of which [o:2] is stored empty, [idx:broken] lists
    one whose payload is cut short, and [idx:down] cannot be reached. *)
#[export] Instance store : RedisClient string nat := {|
  client_Ping cl ctx n :=
    (if (rdb.Addr cl =? "down:6379")%string
     then Some "dial tcp: connection refused" else None, S n);
  client_SMembers cl ctx key n :=
    (if (key =? "idx:orders")%string then (Some ["o:1"; "o:2"; "o:3"], None)
     else if (key =? "idx:broken")%string then (Some ["o:1"; "o:9"; "o:3"], None)
     else if (key =? "idx:down")%string then (None, Some "i/o timeout")
     else (Some [], None), S n);
  client_Get cl ctx key n :=
    (if (key =? "o:1")%string then (payload "1", None)
     else if (key =? "o:2")%string then (EmptyString, None)
     else if (key =? "o:3")%string then (payload "3", None)
     else if (key =? "o:9")%string then (head, None)
     else (EmptyString, Some "redis: nil"), S n)
|}.

Definition config : ConnectConfig :=
  {| Addr := "localhost:6379"; User := "app"; Password := "secret"; DB := 0;
     pingConnectionTTL := None |}.

(** The same configuration, pointed at an address nothing listens on. *)
Definition unreachable : ConnectConfig :=
  {| Addr := "down:6379"; User := "app"; Password := "secret"; DB := 0;
     pingConnectionTTL := Some (2 * Second)%Z |}.

Definition world0 : World string nat := {| remote := 0; trace := [] |}.

Definition ctx0 : Context := WithTimeout Background (5 * Second)%Z.

(** The service [NewService] builds, and the one [Init] leaves. *)
Definition fresh : Service := NewService config "orders".

Definition handle : Client :=
  NewClient {| rdb.Addr := "localhost:6379"; rdb.Username := "app";
               rdb.Password := "secret"; rdb.DB := 0 |}.

Definition live : Service :=
  {| c := c fresh; client := Some handle; traceName := traceName fresh |}.

End Mock.


(** ** The rest of the service: [SMembers], [Set], [Disconnect] *)

(** What the package passes as [interface{}]. *)
Inductive Any : Type :=
| AnyNil
| AnyString (s : string)
| AnyInt (n : Z)
| AnyBytes (b : list Byte.byte).

(** The commands of [rdb.Client] besides the reads above.  They answer
    from the remote state and may change it; they are not events of the
    trace, which keeps the reads, the decodes and the log lines. *)
Class RedisCommands (Err CS : Type) : Type := {
  client_Close : Client -> CS -> error Err * CS;
  client_Set : Client -> Context -> string -> Any -> Duration -> CS ->
               error Err * CS
}.

Section ServiceRest.
Context {Err CS : Type} {RC : RedisClient Err CS} {RW : RedisCommands Err CS}.

Definition call_Close (cl : Client) : M Err CS (error Err) :=
  fun w =>
    let (r, cs) := client_Close cl (remote w) in
    Done r {| remote := cs; trace := trace w |}.

Definition call_Set (cl : Client) (ctx : Context) (key : string) (value : Any)
  (expiration : Duration) : M Err CS (error Err) :=
  fun w =>
    let (r, cs) := client_Set cl ctx key value expiration (remote w) in
    Done r {| remote := cs; trace := trace w |}.

(** [Disconnect]: the service after the call, and the error returned. *)
Definition Disconnect (s : Service) : M Err CS (Service * error Err) :=
  cl <- deref (client s) ;;
  err <- call_Close cl ;;
  if isErr err then
    ErrorT s "Failed to disconnect from redis" [ArgError err] ;;;
    ret (s, err)
  else
    InfoT s "Successfully disconnected to redis" [] ;;;
    ret ({| c := c s; client := None; traceName := traceName s |}, None).

(** [Set]; the name is a keyword here. *)
Definition Set' (s : Service) (ctx : Context) (key : string) (value : Any)
  (expiration : Duration) : M Err CS (error Err) :=
  cl <- deref (client s) ;;
  err <- call_Set cl ctx key value expiration ;;
  if isErr err then
    ErrorT s "Failed to set key" [ArgString key; ArgError err] ;;;
    ret err
  else
    ret None.

Definition SMembers (s : Service) (ctx : Context) (key : string)
  : M Err CS (slice string * error Err) :=
  cl <- deref (client s) ;;
  ' (result, err) <- call_SMembers cl ctx key ;;
  if isErr err then
    ErrorT s "Failed to set members at key" [ArgString key; ArgError err] ;;;
    ret (None, err)
  else
    ret (result, None).

(** The answers of the store to one [GET] per key, asked in order from the
    state [cs], and the state they leave. *)
Fixpoint fetch_all (cl : Client) (ctx : Context) (keys : list string) (cs : CS)
  : list (string * (string * error Err)) * CS :=
  match keys with
  | [] => ([], cs)
  | key :: rest =>
      let (r, cs1) := client_Get cl ctx key cs in
      let (answers, cs2) := fetch_all cl ctx rest cs1 in
      ((key, r) :: answers, cs2)
  end.

(** The log lines a member that does not resolve leaves: the one of [Get]
    and the one of the loop. *)
Definition skip_lines (a : string * (string * error Err))
  : list (string * list (LogArg Err)) :=
  if resolves (snd a) then []
  else [("Failed to get key", [ArgString (fst a); ArgError (snd (snd a))]);
        ("Failed to get member", [ArgString (fst a); ArgError (snd (snd a))])].

End ServiceRest.

(** The error-level log lines of a trace, oldest first. *)
Fixpoint error_lines {Err : Type} (tr : list (Event Err))
  : list (string * list (LogArg Err)) :=
  match tr with
  | [] => []
  | EvLog ErrorLevel _ msg args :: tr' => (msg, args) :: error_lines tr'
  | _ :: tr' => error_lines tr'
  end.

(** ** A store in memory *)

Module MemStore.

(** String keys with their values, and whether the connection is closed. *)
Record State : Type := {
  strings : list (string * string);
  closed : bool
}.

Fixpoint lookup (key : string) (m : list (string * string)) : option string :=
  match m with
  | [] => None
  | (k, v) :: m' => if (k =? key)%string then Some v else lookup key m'
  end.

Definition when_open {A : Type} (st : State) (zero_answer : A)
  (answer : (A * error string) * State) : (A * error string) * State :=
  if closed st then ((zero_answer, Some "redis: client is closed"), st)
  else answer.

#[export] Instance reads : RedisClient string State := {|
  client_Ping cl ctx st :=
    (if closed st then Some "redis: client is closed" else None, st);
  client_SMembers cl ctx key st :=
    when_open st None ((Some [], None), st);
  client_Get cl ctx key st :=
    when_open st EmptyString
      (match lookup key (strings st) with
       | Some v => ((v, None), st)
       | None => ((EmptyString, Some "redis: nil"), st)
       end)
|}.

#[export] Instance writes : RedisCommands string State := {|
  client_Close cl st :=
    if closed st then (Some "redis: client is closed", st)
    else (None, {| strings := strings st; closed := true |});
  client_Set cl ctx key value expiration st :=
    if closed st then (Some "redis: client is closed", st)
    else match value with
         | AnyString v =>
             (None, {| strings := (key, v) :: strings st; closed := false |})
         | _ => (Some "redis: can't marshal value", st)
         end
|}.

Definition empty : World string State :=
  {| remote := {| strings := []; closed := false |}; trace := [] |}.

Definition gone : World string State :=
  {| remote := {| strings := []; closed := true |}; trace := [] |}.

End MemStore.


(** * Properties *)

Section Properties.
Context {Err CS : Type} {RC : RedisClient Err CS}.

(** ** Running the monad *)

Lemma bind_Done {A B : Type} (m : M Err CS A) (k : A -> M Err CS B)
  (w : World Err CS) {a : A} {w1 : World Err CS} :
  m w = Done a w1 -> bind m k w = k a w1.
Proof. intros H. unfold bind. now rewrite H. Qed.

Lemma trace_snoc2 {A : Type} (l : list A) (a b : A) :
  (l ++ [a]) ++ [b] = l ++ [a; b].
Proof. now rewrite <- app_assoc. Qed.

Lemma resolves_true (v : string) (err : error Err) :
  resolves (v, err) = true -> err = None /\ (len v =? 0)%nat = false.
Proof.
  unfold resolves. cbn [fst snd]. destruct err as [e|]; cbn [isErr negb andb].
  - discriminate.
  - intros H. split; [reflexivity|]. now apply negb_true_iff in H.
Qed.

Lemma resolves_false (v : string) (err : error Err) :
  resolves (v, err) = false -> isErr err || (len v =? 0)%nat = true.
Proof.
  unfold resolves. cbn [fst snd]. destruct err as [e|]; cbn [isErr negb andb orb].
  - reflexivity.
  - intros H. now apply negb_false_iff in H.
Qed.

(** ** [Get] *)

(** A get that resolves is passed on, with one store command and no log
    line. *)
Lemma Get_hit s ctx key (w : World Err CS) {cl v err cs} :
  client s = Some cl ->
  client_Get cl ctx key (remote w) = ((v, err), cs) ->
  resolves (v, err) = true ->
  Get s ctx key w =
    Done (v, None)
         {| remote := cs; trace := trace w ++ [EvGet cl ctx key (v, err)] |}.
Proof.
  intros Hcl Hget Hres. destruct (resolves_true _ _ Hres) as [-> Hlen].
  unfold Get, bind, call_Get. rewrite Hcl. cbn [deref ret].
  rewrite Hget. cbn [isErr orb]. now rewrite Hlen.
Qed.

(** A get that fails or answers the empty string is logged, and the error
    of the store, nil or not, is returned with the empty string. *)
Lemma Get_miss s ctx key (w : World Err CS) {cl v err cs} :
  client s = Some cl ->
  client_Get cl ctx key (remote w) = ((v, err), cs) ->
  resolves (v, err) = false ->
  Get s ctx key w =
    Done (EmptyString, err)
         {| remote := cs;
            trace := trace w ++
              [EvGet cl ctx key (v, err);
               EvLog ErrorLevel (traceName s) "Failed to get key"
                     [ArgString key; ArgError err]] |}.
Proof.
  intros Hcl Hget Hres. apply resolves_false in Hres.
  unfold Get, bind, call_Get. rewrite Hcl. cbn [deref ret].
  rewrite Hget, Hres. unfold ErrorT, emit. cbn [remote trace].
  now rewrite trace_snoc2.
Qed.

(** ** The member loop *)

(** The loop visits every member once, in order; what it appends to
    [result] is read off the answers of the store, and each member it
    skips is reported by one log line. *)
Lemma SMembersWithChild_loop_run members :
  forall s ctx cl result (w : World Err CS),
    client s = Some cl ->
    exists tr cs,
      SMembersWithChild_loop s ctx members (Some result) w =
        Done (Some (result ++ resolved (map snd (gets tr))))
             {| remote := cs; trace := trace w ++ tr |}
      /\ map fst (gets tr) = members
      /\ reported tr =
           map fst (filter (fun a => negb (resolves (snd a))) (gets tr))
      /\ unmarshals tr = [].
Proof.
  induction members as [|member rest IH]; intros s ctx cl result w Hcl.
  - exists [], (remote w). cbn. rewrite !app_nil_r. destruct w; auto.
  - destruct (client_Get cl ctx member (remote w)) as [[v err] cs1] eqn:Hget.
    cbn [SMembersWithChild_loop].
    destruct (resolves (v, err)) eqn:Hres.
    + rewrite (bind_Done _ _ _ (Get_hit s ctx member w Hcl Hget Hres)).
      destruct (resolves_true _ _ Hres) as [-> Hlen].
      cbn [isErr orb]. rewrite Hlen.
      edestruct (IH s ctx cl (result ++ [v])) as (tr & cs & Hrun & Hkeys & Hrep & Hun);
        [exact Hcl|].
      exists (EvGet cl ctx member (v, None) :: tr), cs.
      rewrite Hrun. cbn [remote trace gets unmarshals reported map fst snd filter].
      unfold resolved, error in *. cbn [map filter snd fst]. rewrite Hres.
      cbn [negb map fst]. rewrite <- !app_assoc. cbn [app].
      repeat split; congruence.
    + rewrite (bind_Done _ _ _ (Get_miss s ctx member w Hcl Hget Hres)).
      replace (isErr err || (len EmptyString =? 0)%nat) with true
        by (now rewrite orb_true_r).
      unfold ErrorT at 1. unfold bind at 1, emit at 1. cbn [remote trace].
      edestruct (IH s ctx cl result) as (tr & cs & Hrun & Hkeys & Hrep & Hun);
        [exact Hcl|].
      exists (EvGet cl ctx member (v, err)
              :: EvLog ErrorLevel (traceName s) "Failed to get key"
                       [ArgString member; ArgError err]
              :: EvLog ErrorLevel (traceName s) "Failed to get member"
                       [ArgString member; ArgError err]
              :: tr), cs.
      rewrite Hrun. cbn [remote trace].
      unfold resolved, error in *.
      cbn [gets unmarshals reported map filter snd fst String.eqb Ascii.eqb Bool.eqb].
      rewrite Hres. cbn [negb map fst]. rewrite <- !app_assoc. cbn [app].
      repeat split; congruence.
Qed.

(** ** [SMembersWithChild] *)

(** Runs the call up to the answer [Hsm] of the index fetch. *)
Ltac run_index_fetch Hcl Hsm :=
  unfold SMembersWithChild, InfoT;
  unfold bind at 1, emit at 1; unfold bind at 1;
  rewrite Hcl; cbn [deref ret];
  unfold bind at 1, call_SMembers; cbn [remote trace];
  rewrite Hsm; cbn [isErr].

(** When the index fetch succeeds the call returns the resolved values
    with a nil error, after one [SMEMBERS] and the events of the loop. *)
Lemma SMembersWithChild_ok s ctx key (w : World Err CS) {cl members cs1} :
  client s = Some cl ->
  client_SMembers cl ctx key (remote w) = ((members, None), cs1) ->
  exists tr cs,
    SMembersWithChild s ctx key w =
      Done (Some (resolved (map snd (gets tr))), None)
           {| remote := cs;
              trace := trace w ++
                EvLog InfoLevel (traceName s) "Get members child by key "
                      [ArgString key]
                :: EvSMembers cl ctx key (members, None) :: tr |}
    /\ map fst (gets tr) = elems members
    /\ reported tr =
         map fst (filter (fun a => negb (resolves (snd a))) (gets tr))
    /\ unmarshals tr = [].
Proof.
  intros Hcl Hsm.
  run_index_fetch Hcl Hsm.
  match goal with
  | |- exists _ _, bind _ _ ?w1 = _ /\ _ =>
      destruct (SMembersWithChild_loop_run (elems members) s ctx cl [] w1 Hcl)
        as (tr & cs & Hrun & Hkeys & Hrep & Hun)
  end.
  exists tr, cs. rewrite (bind_Done _ _ _ Hrun). cbn [ret remote trace app].
  rewrite <- !app_assoc. cbn [app]. auto.
Qed.

(** When the index fetch fails the call logs the failure and returns. *)
Lemma SMembersWithChild_fail s ctx key (w : World Err CS) {cl members e cs1} :
  client s = Some cl ->
  client_SMembers cl ctx key (remote w) = ((members, Some e), cs1) ->
  SMembersWithChild s ctx key w =
    Done (None, Some e)
         {| remote := cs1;
            trace := trace w ++
              [EvLog InfoLevel (traceName s) "Get members child by key "
                     [ArgString key];
               EvSMembers cl ctx key (members, Some e);
               EvLog ErrorLevel (traceName s) "Failed to set members at key"
                     [ArgString key; ArgError (Some e)]] |}.
Proof.
  intros Hcl Hsm.
  run_index_fetch Hcl Hsm.
  unfold ErrorT, bind, emit, ret. cbn [remote trace].
  now rewrite <- !app_assoc.
Qed.

(** C1: when the set-membership query at the reference key fails,
    [SMembersWithChild] returns the nil slice together with the error of
    the store, having sent the store that one query only: no member is
    resolved (no [GET] is issued). *)
Theorem SMembersWithChild_index_failure
  s ctx key (w : World Err CS) cl members e cs1 :
  client s = Some cl ->
  client_SMembers cl ctx key (remote w) = ((members, Some e), cs1) ->
  exists tr,
    SMembersWithChild s ctx key w =
      Done (None, Some e) {| remote := cs1; trace := trace w ++ tr |}
    /\ gets tr = []
    /\ commands tr = [EvSMembers cl ctx key (members, Some e)].
Proof.
  intros Hcl Hsm. eexists. split.
  - exact (SMembersWithChild_fail s ctx key w Hcl Hsm).
  - split; reflexivity.
Qed.

(** C2: when the set-membership query succeeds, [SMembersWithChild]
    returns a nil error whatever the gets answer.  Every member is tried
    once, in order; the result holds only non-empty values of gets that
    succeeded; each member whose get failed or answered the empty string is
    left out of the result and reported by one log line, so the result and
    the skipped members add up to the members. *)
Theorem SMembersWithChild_skips_unresolved
  s ctx key (w : World Err CS) cl members cs1 :
  client s = Some cl ->
  client_SMembers cl ctx key (remote w) = ((members, None), cs1) ->
  exists result tr w',
    SMembersWithChild s ctx key w = Done (Some result, None) w'
    /\ trace w' = trace w ++ tr
    /\ map fst (gets tr) = elems members
    /\ (forall v, In v result ->
         v <> EmptyString /\ exists member, In (member, (v, None)) (gets tr))
    /\ reported tr =
         map fst (filter (fun a => negb (resolves (snd a))) (gets tr))
    /\ List.length result + List.length (reported tr)
       = List.length (elems members).
Proof.
  intros Hcl Hsm.
  destruct (SMembersWithChild_ok s ctx key w Hcl Hsm)
    as (tr & cs & Hrun & Hkeys & Hrep & _).
  eexists _, (_ :: _ :: tr), _. split; [exact Hrun|].
  cbn [trace gets reported]. repeat split; auto.
  - unfold resolved in H. apply in_map_iff in H as ((v' & err) & <- & Hin).
    apply filter_In in Hin as [_ Hres]. cbn [fst].
    apply resolves_true in Hres as [_ Hlen]. intros ->. discriminate.
  - unfold resolved in H. apply in_map_iff in H as ((v' & err) & <- & Hin).
    apply filter_In in Hin as [Hin Hres].
    apply in_map_iff in Hin as ((member & a) & Ha & Hin). cbn [snd] in Ha. subst a.
    apply resolves_true in Hres as [-> _]. now exists member.
  - rewrite Hrep, <- Hkeys. unfold resolved. rewrite !length_map.
    clear. induction (gets tr) as [|a l IHl]; [reflexivity|].
    cbn [map filter snd List.length].
    destruct (resolves (snd a)); cbn [negb List.length]; lia.
Qed.



(** C6: when the set-membership query succeeds with zero members,
    [SMembersWithChild] returns the empty, non-nil slice and a nil error,
    and asks the store nothing more. *)
Theorem SMembersWithChild_no_members
  s ctx key (w : World Err CS) cl members cs1 :
  client s = Some cl ->
  client_SMembers cl ctx key (remote w) = ((members, None), cs1) ->
  elems members = [] ->
  SMembersWithChild s ctx key w =
    Done (Some [], None)
         {| remote := cs1;
            trace := trace w ++
              [EvLog InfoLevel (traceName s) "Get members child by key "
                     [ArgString key];
               EvSMembers cl ctx key (members, None)] |}.
Proof.
  intros Hcl Hsm Hnone.
  run_index_fetch Hcl Hsm. rewrite Hnone. cbn [SMembersWithChild_loop].
  unfold bind, ret. now rewrite trace_snoc2.
Qed.

(** ** Decoding *)

Context {T : Type} {JC : JSONCodec Err T}.

Lemma elems_append_all (xs : list T) :
  forall sv : slice T, elems (append_all sv xs) = elems sv ++ xs.
Proof.
  induction xs as [|x xs IH]; intros sv; cbn [append_all fold_left].
  - now rewrite app_nil_r.
  - fold (append_all (append sv x) xs). rewrite IH. cbn [append elems].
    now rewrite <- app_assoc.
Qed.

Lemma unmarshals_app (tr1 tr2 : list (Event Err)) :
  unmarshals (tr1 ++ tr2) = unmarshals tr1 ++ unmarshals tr2.
Proof.
  induction tr1 as [|e tr1 IH]; [reflexivity|].
  destruct e; cbn [app unmarshals]; now rewrite IH.
Qed.

Lemma unmarshals_EvUnmarshal (items : list string) :
  unmarshals (map (@EvUnmarshal Err) items) = items.
Proof.
  induction items as [|i items IH]; cbn [map unmarshals]; congruence.
Qed.

Lemma decoded_prefix_attempted (items : list string) :
  decoded_prefix items = map decode (filter decodes (attempted items)).
Proof.
  induction items as [|item rest IH]; [reflexivity|].
  cbn [decoded_prefix attempted filter].
  destruct (decodes item) eqn:Hd; cbn [map]; [now rewrite IH|reflexivity].
Qed.

(** The decode loop, whatever the payloads: it appends the elements
    decoded before the first failure, returns the error of that failure,
    and calls the decoder on nothing after it. *)
Lemma JSONSMembersWithChild_loop_run (items : list string) :
  forall (sv : slice T) (w : World Err CS),
    JSONSMembersWithChild_loop items sv w =
      Done (append_all sv (decoded_prefix items), first_failure items)
           {| remote := remote w;
              trace := trace w ++ map EvUnmarshal (attempted items) |}.
Proof.
  induction items as [|item rest IH]; intros sv w.
  - cbn. rewrite app_nil_r. now destruct w.
  - cbn [JSONSMembersWithChild_loop decoded_prefix attempted first_failure].
    unfold call_Unmarshal, bind, emit, ret. unfold decodes, decode.
    destruct (json_Unmarshal item zero) as [newElem err].
    cbn [fst snd]. destruct err as [e|]; cbn [isErr negb].
    + cbn [append_all fold_left map]. reflexivity.
    + rewrite IH. cbn [remote trace append_all fold_left map].
      now rewrite <- app_assoc.
Qed.

(** Payloads whose first failure is at position [k]. *)
Lemma first_failure_at (k : nat) :
  forall (items : list string) bad e,
    nth_error items k = Some bad ->
    snd (json_Unmarshal bad zero) = Some e ->
    Forall (fun item => snd (json_Unmarshal item zero) = None) (firstn k items) ->
    decoded_prefix items = map decode (firstn k items)
    /\ attempted items = firstn (S k) items
    /\ first_failure items = Some e.
Proof.
  induction k as [|k IH]; intros [|item rest] bad e Hnth Hbad Hpre;
    try discriminate.
  - cbn in Hnth. injection Hnth as ->.
    cbn [decoded_prefix attempted first_failure firstn map].
    unfold decodes. rewrite Hbad. cbn [isErr negb]. auto.
  - cbn [nth_error] in Hnth. cbn [firstn] in Hpre.
    apply Forall_cons_iff in Hpre as [Hitem Hpre].
    destruct (IH rest bad e Hnth Hbad Hpre) as (Hdec & Hatt & Hfail).
    cbn [decoded_prefix attempted first_failure map].
    unfold decodes. rewrite Hitem. cbn [isErr negb].
    rewrite Hdec, Hatt, Hfail. cbn [firstn map]. auto.
Qed.

(** C4: when [SMembersWithChild] yields raw values of which the one at
    position [k] is the first that fails to decode, [JSONSMembersWithChild]
    returns the error of that decode; the caller's slice then holds, after
    what it held before, exactly the [k] elements decoded from the values
    before position [k], in order (so exactly those when it was handed in
    empty); and the decoder is called on the first [k + 1] values only. *)
Theorem JSONSMembersWithChild_decode_failure
  s ctx key (v : slice T) (w w1 : World Err CS) raw k bad e :
  SMembersWithChild s ctx key w = Done (raw, None) w1 ->
  nth_error (elems raw) k = Some bad ->
  snd (json_Unmarshal bad zero) = Some e ->
  Forall (fun item => snd (json_Unmarshal item zero) = None)
         (firstn k (elems raw)) ->
  let decoded := map decode (firstn k (elems raw)) in
  exists out,
    JSONSMembersWithChild s ctx key v w =
      Done (out, Some e)
           {| remote := remote w1;
              trace := trace w1 ++
                map EvUnmarshal (firstn (S k) (elems raw)) |}
    /\ elems out = elems v ++ decoded
    /\ List.length decoded = k
    /\ (elems v = [] -> elems out = decoded).
Proof.
  intros Hrun Hnth Hbad Hpre decoded.
  destruct (first_failure_at k (elems raw) bad e Hnth Hbad Hpre)
    as (Hdec & Hatt & Hfail).
  exists (append_all v decoded).
  assert (Hout : elems (append_all v decoded) = elems v ++ decoded)
    by apply elems_append_all.
  repeat split.
  - unfold JSONSMembersWithChild. rewrite (bind_Done _ _ _ Hrun).
    cbn [isErr]. rewrite JSONSMembersWithChild_loop_run.
    now rewrite Hdec, Hatt, Hfail.
  - exact Hout.
  - subst decoded. rewrite length_map, length_firstn.
    assert (k < List.length (elems raw)) by (apply nth_error_Some; congruence).
    lia.
  - intros Hempty. now rewrite Hout, Hempty.
Qed.

(** C9: when the inner [SMembersWithChild] returns an error,
    [JSONSMembersWithChild] logs it and returns it; the slice behind the
    caller's pointer is the one handed in, whatever it is, and the decoder
    is not called. *)
Theorem JSONSMembersWithChild_index_failure
  s ctx key (w w1 : World Err CS) r e :
  SMembersWithChild s ctx key w = Done (r, Some e) w1 ->
  forall v : slice T,
    JSONSMembersWithChild s ctx key v w =
      Done (v, Some e)
           {| remote := remote w1;
              trace := trace w1 ++
                [EvLog ErrorLevel (traceName s) "Failed to set members at key"
                       [ArgString key; ArgError (Some e)]] |}.
Proof.
  intros Hrun v. unfold JSONSMembersWithChild.
  rewrite (bind_Done _ _ _ Hrun). reflexivity.
Qed.

(** C10: [JSONSMembersWithChild] appends.  On a live service the call
    returns, and the caller's slice then holds the elements it held before,
    in place, followed by the elements decoded during the call, in the
    order the payloads were handed to the decoder.  Those payloads are the
    raw values [SMembersWithChild] yields on the same store, in order, up
    to the first that fails to decode, so the elements appended are the
    ones decoded from the raw values before that failure; when the inner
    call fails nothing is decoded and the slice is the one handed in. *)
Theorem JSONSMembersWithChild_appends
  s ctx key (v : slice T) (w : World Err CS) cl :
  client s = Some cl ->
  exists r w1 out err tr w',
    SMembersWithChild s ctx key w = Done r w1
    /\ JSONSMembersWithChild s ctx key v w = Done (out, err) w'
    /\ trace w' = trace w ++ tr
    /\ elems out = elems v ++ map decode (filter decodes (unmarshals tr))
    /\ (snd r = None ->
        elems out = elems v ++ decoded_prefix (elems (fst r))
        /\ unmarshals tr = attempted (elems (fst r)))
    /\ (snd r <> None -> out = v /\ unmarshals tr = []).
Proof.
  intros Hcl.
  destruct (client_SMembers cl ctx key (remote w)) as [[members [e|]] cs1] eqn:Hsm.
  - pose proof (SMembersWithChild_fail s ctx key w Hcl Hsm) as Hrun.
    eexists _, _, v, (Some e), _, _. split; [exact Hrun|]. split.
    + unfold JSONSMembersWithChild. rewrite (bind_Done _ _ _ Hrun). reflexivity.
    + cbn [trace fst snd]. split; [rewrite <- app_assoc; reflexivity|].
      split; [cbn; now rewrite app_nil_r|].
      split; [discriminate|]. intros _. split; reflexivity.
  - destruct (SMembersWithChild_ok s ctx key w Hcl Hsm)
      as (tr & cs & Hrun & _ & _ & Hun).
    eexists _, _, _, _, _, _. split; [exact Hrun|]. split.
    + unfold JSONSMembersWithChild. rewrite (bind_Done _ _ _ Hrun).
      cbn [isErr]. apply JSONSMembersWithChild_loop_run.
    + cbn [trace fst snd]. split; [rewrite <- app_assoc; reflexivity|].
      assert (Hpayloads :
        unmarshals
          ((EvLog InfoLevel (traceName s) "Get members child by key "
                  [ArgString key]
            :: EvSMembers cl ctx key (members, None) :: tr)
           ++ map EvUnmarshal
                  (attempted (elems (Some (resolved (map snd (gets tr)))))))
        = attempted (elems (Some (resolved (map snd (gets tr)))))).
      { cbn [app unmarshals]. rewrite unmarshals_app, Hun.
        cbn [app]. apply unmarshals_EvUnmarshal. }
      rewrite Hpayloads, elems_append_all.
      split; [f_equal; apply decoded_prefix_attempted|].
      split; [intros _; split; reflexivity|].
      intros Habs. now contradiction Habs.
Qed.

(** ** Single-key gets *)

(** A get the store fails (an absent key is the error [redis.Nil]) is an
    error of [Get] and of [JSONGet]: the error of the store is returned,
    and nothing is decoded. *)
Lemma Get_store_error s ctx key (w : World Err CS) cl result e cs (v : T) :
  client s = Some cl ->
  client_Get cl ctx key (remote w) = ((result, Some e), cs) ->
  let w' :=
    {| remote := cs;
       trace := trace w ++
         [EvGet cl ctx key (result, Some e);
          EvLog ErrorLevel (traceName s) "Failed to get key"
                [ArgString key; ArgError (Some e)]] |} in
  Get s ctx key w = Done (EmptyString, Some e) w'
  /\ JSONGet s ctx key v w = Done (v, Some e) w'.
Proof.
  intros Hcl Hget w'. split.
  - exact (Get_miss s ctx key w Hcl Hget eq_refl).
  - unfold JSONGet, bind, call_Get. rewrite Hcl. cbn [deref ret].
    rewrite Hget. cbn [isErr orb]. unfold ErrorT, emit. cbn [remote trace].
    subst w'. now rewrite trace_snoc2.
Qed.

(** C5, as the code has it: a get the store answers with the empty string
    and a nil error is logged as failed, yet the error [Get] and [JSONGet]
    return is that nil error; [JSONGet] leaves the caller's value as it
    was and calls no decoder. *)
Theorem Get_empty_value_nil_error
  s ctx key (w : World Err CS) cl cs (v : T) :
  client s = Some cl ->
  client_Get cl ctx key (remote w) = ((EmptyString, None), cs) ->
  let w' :=
    {| remote := cs;
       trace := trace w ++
         [EvGet cl ctx key (EmptyString, None);
          EvLog ErrorLevel (traceName s) "Failed to get key"
                [ArgString key; ArgError None]] |} in
  Get s ctx key w = Done (EmptyString, None) w'
  /\ JSONGet s ctx key v w = Done (v, None) w'.
Proof.
  intros Hcl Hget w'. split.
  - exact (Get_miss s ctx key w Hcl Hget eq_refl).
  - unfold JSONGet, bind, call_Get. rewrite Hcl. cbn [deref ret].
    rewrite Hget. cbn [isErr orb len String.length Nat.eqb].
    unfold ErrorT, emit. cbn [remote trace].
    subst w'. now rewrite trace_snoc2.
Qed.

(** ** Construction and the connectivity probe *)

(** [Init] on a configuration whose probe timeout is nil dereferences the
    nil pointer: it panics before any probe. *)
Lemma Init_nil_timeout s (w : World Err CS) :
  pingConnectionTTL (c s) = None -> Init s w = Panic w.
Proof.
  intros Hnil. unfold Init. cbn [c]. unfold bind. now rewrite Hnil.
Qed.

(** What [Init] does on a configuration whose probe timeout is set. *)
Lemma Init_run s (w : World Err CS) {ttl} :
  pingConnectionTTL (c s) = Some ttl ->
  let cl := NewClient {| rdb.Addr := Addr (c s); rdb.Username := User (c s);
                         rdb.Password := Password (c s); rdb.DB := DB (c s) |} in
  let ctx := WithTimeout Background ttl in
  let s' := {| c := c s; client := Some cl; traceName := traceName s |} in
  let r := fst (client_Ping cl ctx (remote w)) in
  Init s w =
    Done (s', r)
         {| remote := snd (client_Ping cl ctx (remote w));
            trace := trace w ++
              [EvPing cl ctx r;
               if isErr r
               then EvLog ErrorLevel (traceName s) "Failed to connect to redis"
                          [ArgError r]
               else EvLog InfoLevel (traceName s)
                          "Successfully connected to redis" []] |}.
Proof.
  intros Httl cl ctx s' r. unfold Init. cbn [c traceName].
  unfold bind at 1. rewrite Httl. cbn [deref ret].
  unfold bind at 1, call_Ping, NewContextWithTimeout.
  fold cl. fold ctx. subst r.
  destruct (client_Ping cl ctx (remote w)) as [r cs]. cbn [fst snd].
  destruct r as [e|]; cbn [isErr]; unfold ErrorT, InfoT, bind, emit, ret;
    cbn [remote trace traceName]; now rewrite trace_snoc2.
Qed.

(** C7: on a configuration whose probe timeout is nil, [NewService]
    installs 30 seconds (30,000,000,000 ns), and [Init] on that service
    returns after probing the store exactly once, under a context whose
    timeout is those 30 seconds. *)
Theorem NewService_default_probe_timeout c0 name (w : World Err CS) :
  pingConnectionTTL c0 = None ->
  let s := NewService c0 name in
  let cl := NewClient {| rdb.Addr := Addr c0; rdb.Username := User c0;
                         rdb.Password := Password c0; rdb.DB := DB c0 |} in
  let ctx := WithTimeout Background 30000000000%Z in
  pingConnectionTTL (c s) = Some 30000000000%Z
  /\ exists s' err cs tr,
       Init s w = Done (s', err) {| remote := cs; trace := trace w ++ tr |}
       /\ commands tr = [EvPing cl ctx err].
Proof.
  intros Hnil s cl ctx.
  assert (Hc : c s = {| Addr := Addr c0; User := User c0;
                        Password := Password c0; DB := DB c0;
                        pingConnectionTTL := Some 30000000000%Z |}).
  { subst s. unfold NewService. now rewrite Hnil. }
  assert (Httl : pingConnectionTTL (c s) = Some 30000000000%Z)
    by now rewrite Hc.
  split; [exact Httl|].
  pose proof (Init_run s w Httl) as Hrun. cbv zeta in Hrun.
  rewrite Hc in Hrun. cbn [Addr User Password DB] in Hrun.
  fold cl in Hrun. fold ctx in Hrun.
  eexists _, _, _, _. split; [exact Hrun|].
  unfold commands. cbn [filter is_command].
  destruct (isErr (fst (client_Ping cl ctx (remote w)))); reflexivity.
Qed.

(** C8: on a configuration whose probe timeout is set (as [NewService]
    leaves it), [Init] returns, and the error it returns is the error of
    the ping: non-nil exactly when the ping failed, nil when it succeeded.
    Either way the service holds the handle of the new client. *)
Theorem Init_error_iff_ping_fails s (w : World Err CS) ttl r cs :
  pingConnectionTTL (c s) = Some ttl ->
  let cl := NewClient {| rdb.Addr := Addr (c s); rdb.Username := User (c s);
                         rdb.Password := Password (c s); rdb.DB := DB (c s) |} in
  client_Ping cl (WithTimeout Background ttl) (remote w) = (r, cs) ->
  exists s' err w',
    Init s w = Done (s', err) w'
    /\ err = r
    /\ (err <> None <-> r <> None)
    /\ (r = None -> err = None)
    /\ client s' = Some cl
    /\ remote w' = cs.
Proof.
  intros Httl cl Hping.
  pose proof (Init_run s w Httl) as Hrun. cbv zeta in Hrun.
  fold cl in Hrun. rewrite Hping in Hrun. cbn [fst snd] in Hrun.
  eexists _, _, _. split; [exact Hrun|].
  repeat split; auto.
Qed.

End Properties.


(** * The properties on the orders example *)

Module OrdersExample.
Import Mock.

Lemma SMembersWithChild_index_failure_witness :
  exists tr,
    SMembersWithChild live ctx0 "idx:down" world0 =
      Done (None, Some "i/o timeout") {| remote := 1; trace := tr |}
    /\ gets tr = [].
Proof.
  destruct (SMembersWithChild_index_failure
              live ctx0 "idx:down" world0 handle None "i/o timeout" 1)
    as (tr & Hrun & Hgets & _); [reflexivity | reflexivity |].
  exists tr. split; [exact Hrun | exact Hgets].
Defined.

Lemma SMembersWithChild_skips_unresolved_witness :
  exists result w',
    SMembersWithChild live ctx0 "idx:orders" world0 = Done (Some result, None) w'
    /\ forall v, In v result -> v <> EmptyString.
Proof.
  destruct (SMembersWithChild_skips_unresolved
              live ctx0 "idx:orders" world0 handle
              (Some ["o:1"; "o:2"; "o:3"]) 1)
    as (result & tr & w' & Hrun & _ & _ & Hin & _);
    [reflexivity | reflexivity |].
  exists result, w'. split; [exact Hrun|].
  intros v Hv. exact (proj1 (Hin v Hv)).
Defined.


Lemma SMembersWithChild_no_members_witness :
  SMembersWithChild live ctx0 "idx:none" world0 =
    Done (Some [], None)
         {| remote := 1;
            trace := [EvLog InfoLevel "[orders_RedisService]"
                            "Get members child by key " [ArgString "idx:none"];
                      EvSMembers handle ctx0 "idx:none" (Some [], None)] |}.
Proof.
  apply (SMembersWithChild_no_members
           live ctx0 "idx:none" world0 handle (Some []) 1); reflexivity.
Defined.

Lemma JSONSMembersWithChild_decode_failure_witness :
  exists out w',
    JSONSMembersWithChild live ctx0 "idx:broken" (Some [{| id := 7 |}]) world0
      = Done (out, Some "unexpected end of JSON input") w'
    /\ elems out = [{| id := 7 |}; {| id := 1 |}]
    /\ unmarshals (trace w') = [payload "1"; head].
Proof.
  edestruct (JSONSMembersWithChild_decode_failure
               live ctx0 "idx:broken" (Some [{| id := 7 |}]) world0)
    with (k := 1) (bad := head) (e := "unexpected end of JSON input")
    as (out & Hrun & Helems & _).
  - vm_compute. reflexivity.
  - reflexivity.
  - reflexivity.
  - repeat constructor.
  - exists out. eexists. split; [exact Hrun|]. split; [exact Helems|].
    reflexivity.
Defined.

Lemma Get_empty_value_nil_error_witness :
  (exists w', Get live ctx0 "o:2" world0 = Done (EmptyString, None) w')
  /\ (exists w', JSONGet live ctx0 "o:2" {| id := 5 |} world0
                 = Done ({| id := 5 |}, None) w').
Proof.
  destruct (Get_empty_value_nil_error
              live ctx0 "o:2" world0 handle 1 {| id := 5 |})
    as [HGet HJSONGet]; [reflexivity | reflexivity |].
  split; eexists; [exact HGet | exact HJSONGet].
Defined.

Lemma NewService_default_probe_timeout_witness :
  pingConnectionTTL (c (NewService config "orders")) = Some 30000000000%Z
  /\ exists s' err cs tr,
       Init (NewService config "orders") world0
         = Done (s', err) {| remote := cs; trace := trace world0 ++ tr |}
       /\ commands tr
          = [EvPing handle (WithTimeout Background 30000000000%Z) err].
Proof.
  apply (NewService_default_probe_timeout config "orders" world0).
  reflexivity.
Defined.

Lemma Init_error_iff_ping_fails_witness :
  (exists s' w', Init fresh world0 = Done (s', None) w'
                 /\ client s' = Some handle)
  /\ (exists s' w', Init (NewService unreachable "orders") world0
                      = Done (s', Some "dial tcp: connection refused") w').
Proof.
  split.
  - destruct (Init_error_iff_ping_fails fresh world0 30000000000%Z None 1)
      as (s' & err & w' & Hrun & Herr & _ & _ & Hcl & _);
      [reflexivity | reflexivity |].
    exists s', w'. rewrite <- Herr. split; [exact Hrun | exact Hcl].
  - destruct (Init_error_iff_ping_fails
                (NewService unreachable "orders") world0
                (2 * Second)%Z (Some "dial tcp: connection refused") 1)
      as (s' & err & w' & Hrun & Herr & _);
      [reflexivity | reflexivity |].
    exists s', w'. rewrite <- Herr. exact Hrun.
Defined.

Lemma JSONSMembersWithChild_index_failure_witness :
  exists w',
    JSONSMembersWithChild live ctx0 "idx:down" (Some [{| id := 7 |}]) world0
      = Done (Some [{| id := 7 |}], Some "i/o timeout") w'.
Proof.
  eexists.
  eapply (JSONSMembersWithChild_index_failure live ctx0 "idx:down" world0).
  vm_compute. reflexivity.
Defined.

Lemma JSONSMembersWithChild_appends_witness :
  exists out err w',
    JSONSMembersWithChild live ctx0 "idx:orders" (Some [{| id := 7 |}]) world0
      = Done (out, err) w'
    /\ elems out = [{| id := 7 |}; {| id := 1 |}; {| id := 3 |}].
Proof.
  destruct (JSONSMembersWithChild_appends
              live ctx0 "idx:orders" (Some [{| id := 7 |}]) world0 handle)
    as (r & w1 & out & err & tr & w' & Hraw & Hrun & _ & _ & Hdecoded & _);
    [reflexivity|].
  vm_compute in Hraw. injection Hraw as <- <-.
  exists out, err, w'. split; [exact Hrun|].
  exact (proj1 (Hdecoded eq_refl)).
Defined.

End OrdersExample.


(** * Further properties of the service *)

Section MoreProperties.
Context {Err CS : Type} {RC : RedisClient Err CS}.

(** ** What the member loop asks the store *)

Lemma fetch_all_keys cl ctx (keys : list string) :
  forall cs : CS, map fst (fst (fetch_all cl ctx keys cs)) = keys.
Proof.
  induction keys as [|key rest IH]; intros cs; [reflexivity|].
  cbn [fetch_all]. destruct (client_Get cl ctx key cs) as [r cs1].
  specialize (IH cs1). destruct (fetch_all cl ctx rest cs1) as [answers cs2].
  cbn [fst map] in *. now rewrite IH.
Qed.

Lemma fetch_all_stable cl ctx (g : string -> string * error Err) :
  (forall key (cs : CS), fst (client_Get cl ctx key cs) = g key) ->
  forall keys cs, map snd (fst (fetch_all cl ctx keys cs)) = map g keys.
Proof.
  intros Hg keys. induction keys as [|key rest IH]; intros cs; [reflexivity|].
  cbn [fetch_all]. specialize (Hg key cs).
  destruct (client_Get cl ctx key cs) as [r cs1].
  specialize (IH cs1). destruct (fetch_all cl ctx rest cs1) as [answers cs2].
  cbn [fst snd map] in *. now rewrite IH, Hg.
Qed.

Lemma resolved_length_skipped (answers : list (string * (string * error Err))) :
  List.length (flat_map skip_lines answers)
  + 2 * List.length (resolved (map snd answers))
  = 2 * List.length answers.
Proof.
  unfold resolved. rewrite length_map.
  induction answers as [|a answers IH]; [reflexivity|].
  cbn [flat_map map filter]. rewrite length_app. unfold skip_lines at 1.
  destruct (resolves (snd a)); cbn [List.length]; lia.
Qed.

(** The loop in full: the store is asked one [GET] per member, in order,
    each from the state the one before left; nothing else is sent, and a
    member that does not resolve leaves two error lines. *)
Lemma SMembersWithChild_loop_fetch members :
  forall s ctx cl result (w : World Err CS),
    client s = Some cl ->
    exists tr,
      SMembersWithChild_loop s ctx members (Some result) w =
        Done (Some (result ++ resolved (map snd (gets tr))))
             {| remote := snd (fetch_all cl ctx members (remote w));
                trace := trace w ++ tr |}
      /\ gets tr = fst (fetch_all cl ctx members (remote w))
      /\ commands tr = map (fun a => EvGet cl ctx (fst a) (snd a)) (gets tr)
      /\ error_lines tr = flat_map skip_lines (gets tr)
      /\ unmarshals tr = [].
Proof.
  induction members as [|member rest IH]; intros s ctx cl result w Hcl.
  - exists []. cbn. rewrite !app_nil_r. destruct w; auto.
  - cbn [SMembersWithChild_loop fetch_all].
    destruct (client_Get cl ctx member (remote w)) as [[v err] cs1] eqn:Hget.
    destruct (resolves (v, err)) eqn:Hres.
    + rewrite (bind_Done _ _ _ (Get_hit s ctx member w Hcl Hget Hres)).
      destruct (resolves_true _ _ Hres) as [-> Hlen].
      cbn [isErr orb]. rewrite Hlen.
      edestruct (IH s ctx cl (result ++ [v])) as (tr & Hrun & Hgets & Hcmd & Hlog & Hun);
        [exact Hcl|].
      exists (EvGet cl ctx member (v, None) :: tr).
      rewrite Hrun. cbn [remote trace] in *.
      destruct (fetch_all cl ctx rest cs1) as [answers cs2].
      unfold resolved, commands, skip_lines, error in *.
      cbn [gets unmarshals error_lines map filter is_command flat_map fst snd] in *.
      rewrite Hres. cbn [map fst app]. rewrite <- !app_assoc. cbn [app].
      repeat split; first [assumption | f_equal; assumption].
    + rewrite (bind_Done _ _ _ (Get_miss s ctx member w Hcl Hget Hres)).
      replace (isErr err || (len EmptyString =? 0)%nat) with true
        by (now rewrite orb_true_r).
      unfold ErrorT at 1. unfold bind at 1, emit at 1. cbn [remote trace].
      edestruct (IH s ctx cl result) as (tr & Hrun & Hgets & Hcmd & Hlog & Hun);
        [exact Hcl|].
      exists (EvGet cl ctx member (v, err)
              :: EvLog ErrorLevel (traceName s) "Failed to get key"
                       [ArgString member; ArgError err]
              :: EvLog ErrorLevel (traceName s) "Failed to get member"
                       [ArgString member; ArgError err]
              :: tr).
      rewrite Hrun. cbn [remote trace] in *.
      destruct (fetch_all cl ctx rest cs1) as [answers cs2].
      unfold resolved, commands, skip_lines, error in *.
      cbn [gets unmarshals error_lines map filter is_command flat_map fst snd] in *.
      rewrite Hres. cbn [map fst app]. rewrite <- !app_assoc. cbn [app].
      repeat split; first [assumption | repeat f_equal; assumption].
Qed.

(** Runs [SMembersWithChild] up to the answer [Hsm] of the index fetch. *)
Ltac run_to_index Hcl Hsm :=
  unfold SMembersWithChild, InfoT;
  unfold bind at 1, emit at 1; unfold bind at 1;
  rewrite Hcl; cbn [deref ret];
  unfold bind at 1, call_SMembers; cbn [remote trace];
  rewrite Hsm; cbn [isErr].

(** [SMembersWithChild] when the index fetch succeeds, in full. *)
Lemma SMembersWithChild_fetch s ctx key (w : World Err CS) {cl members cs1} :
  client s = Some cl ->
  client_SMembers cl ctx key (remote w) = ((members, None), cs1) ->
  let answers := fst (fetch_all cl ctx (elems members) cs1) in
  exists tr,
    SMembersWithChild s ctx key w =
      Done (Some (resolved (map snd answers)), None)
           {| remote := snd (fetch_all cl ctx (elems members) cs1);
              trace := trace w ++ tr |}
    /\ gets tr = answers
    /\ commands tr =
         EvSMembers cl ctx key (members, None)
         :: map (fun a => EvGet cl ctx (fst a) (snd a)) answers
    /\ error_lines tr = flat_map skip_lines answers
    /\ unmarshals tr = [].
Proof.
  intros Hcl Hsm answers. run_to_index Hcl Hsm.
  match goal with
  | |- exists _, bind _ _ ?w1 = _ /\ _ =>
      destruct (SMembersWithChild_loop_fetch (elems members) s ctx cl [] w1 Hcl)
        as (tr & Hrun & Hgets & Hcmd & Hlog & Hun)
  end.
  cbn [remote trace] in *.
  exists (EvLog InfoLevel (traceName s) "Get members child by key "
                [ArgString key]
          :: EvSMembers cl ctx key (members, None) :: tr).
  rewrite (bind_Done _ _ _ Hrun). subst answers.
  unfold commands in *. cbn [ret gets unmarshals error_lines filter is_command app].
  rewrite Hcmd, Hlog, Hgets, Hun, <- !app_assoc. cbn [app]. auto.
Qed.

(** X1: when the index fetch succeeds, [SMembersWithChild] calls the
    client once for [SMembers] and then once for [Get] per member, in the
    order of the members, each call answered from the state the call
    before left: 1 + n calls on the client for n members, whether or not
    the members resolve.  What the client puts on the wire for a call
    (retries, reconnects) is the client's and is not counted. *)
Theorem SMembersWithChild_round_trips
  s ctx key (w : World Err CS) cl members cs1 :
  client s = Some cl ->
  client_SMembers cl ctx key (remote w) = ((members, None), cs1) ->
  exists r tr w',
    SMembersWithChild s ctx key w = Done r w'
    /\ trace w' = trace w ++ tr
    /\ commands tr =
         EvSMembers cl ctx key (members, None)
         :: map (fun a => EvGet cl ctx (fst a) (snd a))
                (fst (fetch_all cl ctx (elems members) cs1))
    /\ List.length (commands tr) = 1 + List.length (elems members)
    /\ remote w' = snd (fetch_all cl ctx (elems members) cs1).
Proof.
  intros Hcl Hsm.
  destruct (SMembersWithChild_fetch s ctx key w Hcl Hsm)
    as (tr & Hrun & _ & Hcmd & _).
  eexists _, tr, _. split; [exact Hrun|]. cbn [trace remote].
  repeat split; auto.
  rewrite Hcmd. cbn [List.length]. rewrite length_map.
  now rewrite <- (fetch_all_keys cl ctx (elems members) cs1) at 2;
    rewrite length_map.
Qed.

(** X2: when the index fetch succeeds, the gets of [SMembersWithChild]
    are those of the members, in the order of the members, and the error
    lines it logs are two per member left out of the result, the one of
    [Get] followed by the one of the loop, both with that member and the
    error of its get, in the order of the members; a member that resolves
    logs nothing. *)
Theorem SMembersWithChild_two_lines_per_skipped_member
  s ctx key (w : World Err CS) cl members cs1 :
  client s = Some cl ->
  client_SMembers cl ctx key (remote w) = ((members, None), cs1) ->
  exists result tr w',
    SMembersWithChild s ctx key w = Done (Some result, None) w'
    /\ trace w' = trace w ++ tr
    /\ gets tr = fst (fetch_all cl ctx (elems members) cs1)
    /\ map fst (gets tr) = elems members
    /\ result = resolved (map snd (gets tr))
    /\ error_lines tr = flat_map skip_lines (gets tr)
    /\ List.length (error_lines tr) + 2 * List.length result
       = 2 * List.length (elems members).
Proof.
  intros Hcl Hsm.
  destruct (SMembersWithChild_fetch s ctx key w Hcl Hsm)
    as (tr & Hrun & Hgets & _ & Hlog & _).
  eexists _, tr, _. split; [exact Hrun|]. cbn [trace].
  rewrite Hgets, Hlog. repeat split.
  - apply fetch_all_keys.
  - rewrite resolved_length_skipped.
    now rewrite <- (fetch_all_keys cl ctx (elems members) cs1) at 2;
      rewrite length_map.
Qed.

(** X3: on a store whose answer to a [GET] depends on the key only
    (a fixed mock, a store nobody writes to meanwhile), the result of
    [SMembersWithChild] is the non-empty, error-free answers to the
    members, in the order of the members. *)
Theorem SMembersWithChild_stable_store
  s ctx key (w : World Err CS) cl members cs1
  (g : string -> string * error Err) :
  client s = Some cl ->
  client_SMembers cl ctx key (remote w) = ((members, None), cs1) ->
  (forall k cs, fst (client_Get cl ctx k cs) = g k) ->
  exists w',
    SMembersWithChild s ctx key w =
      Done (Some (resolved (map g (elems members))), None) w'.
Proof.
  intros Hcl Hsm Hg.
  destruct (SMembersWithChild_fetch s ctx key w Hcl Hsm) as (tr & Hrun & _).
  rewrite (fetch_all_stable cl ctx g Hg) in Hrun.
  eexists. exact Hrun.
Qed.

(** X4: [SMembersWithChild] starts with the query [SMembers] makes.  When
    [SMembers] returns an error, [SMembersWithChild] returns the nil slice
    and that error, as [SMembers] does; when [SMembers] returns members,
    [SMembersWithChild] gets exactly those, in that order. *)
Theorem SMembersWithChild_follows_SMembers
  s ctx key (w w1 : World Err CS) ms err :
  SMembers s ctx key w = Done (ms, err) w1 ->
  exists r tr w2,
    SMembersWithChild s ctx key w = Done (r, err) w2
    /\ trace w2 = trace w ++ tr
    /\ (err <> None -> ms = None /\ r = None /\ gets tr = [])
    /\ (err = None -> map fst (gets tr) = elems ms).
Proof.
  unfold SMembers. unfold bind at 1.
  destruct (client s) as [cl|] eqn:Hcl; cbn [deref ret panic]; [|discriminate].
  unfold bind at 1, call_SMembers.
  destruct (client_SMembers cl ctx key (remote w)) as [[members [e|]] cs1] eqn:Hsm;
    cbn [isErr]; unfold ErrorT, bind, emit, ret; intros Hrun;
    injection Hrun as <- <- <-.
  - eexists _, _, _. split; [exact (SMembersWithChild_fail s ctx key w Hcl Hsm)|].
    cbn [trace]. repeat split; auto; discriminate.
  - destruct (SMembersWithChild_fetch s ctx key w Hcl Hsm)
      as (tr & Hrun & Hgets & _).
    eexists _, tr, _. split; [exact Hrun|]. cbn [trace].
    repeat split; try congruence.
    intros _. rewrite Hgets. apply fetch_all_keys.
Qed.

(** [Get] on a live client returns, after one [GET]. *)
Lemma Get_live_returns
  s ctx key (w : World Err CS) cl v err cs :
  client s = Some cl ->
  client_Get cl ctx key (remote w) = ((v, err), cs) ->
  exists r tr,
    Get s ctx key w = Done r {| remote := cs; trace := trace w ++ tr |}
    /\ commands tr = [EvGet cl ctx key (v, err)].
Proof.
  intros Hcl Hget. destruct (resolves (v, err)) eqn:Hres.
  - eexists _, _. split; [exact (Get_hit s ctx key w Hcl Hget Hres)|].
    reflexivity.
  - eexists _, _. split; [exact (Get_miss s ctx key w Hcl Hget Hres)|].
    reflexivity.
Qed.

(** X5: [Get] never invents or drops an error: it returns the error of
    the store as it is.  The value it returns is the value of the store
    when the store answered a non-empty value with a nil error, and the
    empty string otherwise, so a value the store sent along with an error
    is dropped.  One [GET] is sent either way. *)
Theorem Get_value_only_without_error
  s ctx key (w : World Err CS) cl v err cs :
  client s = Some cl ->
  client_Get cl ctx key (remote w) = ((v, err), cs) ->
  exists r tr,
    Get s ctx key w = Done (r, err) {| remote := cs; trace := trace w ++ tr |}
    /\ commands tr = [EvGet cl ctx key (v, err)]
    /\ (r <> EmptyString -> r = v /\ err = None)
    /\ (err = None -> r = v)
    /\ (r = EmptyString -> List.length (error_lines tr) = 1).
Proof.
  intros Hcl Hget. destruct (resolves (v, err)) eqn:Hres.
  - destruct (resolves_true _ _ Hres) as [Herr Hlen]. subst err.
    eexists _, _. split; [exact (Get_hit s ctx key w Hcl Hget Hres)|].
    repeat split; auto.
    intros ->. discriminate.
  - eexists _, _. split; [exact (Get_miss s ctx key w Hcl Hget Hres)|].
    repeat split; auto; try congruence.
    intros ->. destruct v; [reflexivity|]. discriminate.
Qed.

(** ** Construction, connection and the calls around them *)

(** X6: for every configuration, [Init] on the service [NewService]
    builds returns (the probe timeout is never nil by then).  The client is
    made from the address, user, password and database of the
    configuration, the one probe runs under the configured timeout, or
    30 s when none was configured, and the service holds the client
    whatever the probe answered. *)
Theorem Init_after_NewService c0 name (w : World Err CS) :
  let cl := NewClient {| rdb.Addr := Addr c0; rdb.Username := User c0;
                         rdb.Password := Password c0; rdb.DB := DB c0 |} in
  let ttl := match pingConnectionTTL c0 with
             | Some d => d
             | None => 30000000000%Z
             end in
  exists s' err cs tr,
    Init (NewService c0 name) w =
      Done (s', err) {| remote := cs; trace := trace w ++ tr |}
    /\ commands tr = [EvPing cl (WithTimeout Background ttl) err]
    /\ client s' = Some cl
    /\ pingConnectionTTL (c s') = Some ttl
    /\ traceName s' = ("[" ++ name ++ "_RedisService]")%string.
Proof.
  intros cl ttl.
  assert (Hc : c (NewService c0 name) =
               {| Addr := Addr c0; User := User c0; Password := Password c0;
                  DB := DB c0; pingConnectionTTL := Some ttl |}).
  { unfold NewService. subst ttl. cbn [c].
    destruct c0 as [a u p d [t|]]; reflexivity. }
  assert (Httl : pingConnectionTTL (c (NewService c0 name)) = Some ttl)
    by now rewrite Hc.
  pose proof (Init_run (NewService c0 name) w Httl) as Hrun. cbv zeta in Hrun.
  rewrite Hc in Hrun. cbn [Addr User Password DB] in Hrun. fold cl in Hrun.
  eexists _, _, _, _. split; [exact Hrun|].
  unfold commands. cbn [filter is_command client c traceName pingConnectionTTL].
  repeat split.
  destruct (isErr (fst (client_Ping cl (WithTimeout Background ttl) (remote w))));
    reflexivity.
Qed.

(** X7: once [Init] has returned, with or without an error of the probe,
    [Get] on the service it leaves reaches the store: it sends its [GET]
    through the client [Init] installed and returns. *)
Theorem Init_then_Get_reaches_store s ctx key (w : World Err CS) ttl :
  pingConnectionTTL (c s) = Some ttl ->
  let cl := NewClient {| rdb.Addr := Addr (c s); rdb.Username := User (c s);
                         rdb.Password := Password (c s); rdb.DB := DB (c s) |} in
  exists s' err w1 r tr cs,
    Init s w = Done (s', err) w1
    /\ Get s' ctx key w1 = Done r {| remote := cs; trace := trace w1 ++ tr |}
    /\ commands tr = [EvGet cl ctx key (fst (client_Get cl ctx key (remote w1)))].
Proof.
  intros Httl cl.
  pose proof (Init_run s w Httl) as Hrun. cbv zeta in Hrun. fold cl in Hrun.
  eexists _, _, _. 
  match type of Hrun with
  | _ = Done (?s1, _) ?w1 =>
      destruct (client_Get cl ctx key (remote w1)) as [[v e] cs] eqn:Hget;
      destruct (Get_live_returns s1 ctx key w1 cl v e cs eq_refl Hget)
        as (r & tr & HGet & Hcmd)
  end.
  eexists _, tr, cs. split; [exact Hrun|]. split; [exact HGet|].
  cbn [remote] in Hget. cbn [remote]. rewrite Hget. exact Hcmd.
Qed.

Context {RW : RedisCommands Err CS}.

Lemma error_lines_app (tr1 tr2 : list (Event Err)) :
  error_lines (tr1 ++ tr2) = error_lines tr1 ++ error_lines tr2.
Proof.
  induction tr1 as [|ev tr1 IH]; [reflexivity|].
  destruct ev as [| | | |[|] ? ? ?]; cbn [app error_lines]; now rewrite IH.
Qed.

(** X8: when the client closes without error, [Disconnect] returns nil and
    leaves the service without a client: until [Init] is called again
    [Get] and a second [Disconnect] panic on the nil client, sending the
    store nothing; [Init] installs a client again. *)
Theorem Disconnect_drops_the_client s (w : World Err CS) cl cs ttl :
  client s = Some cl ->
  pingConnectionTTL (c s) = Some ttl ->
  client_Close cl (remote w) = (None, cs) ->
  exists s' w1,
    Disconnect s w = Done (s', None) w1
    /\ remote w1 = cs
    /\ client s' = None
    /\ c s' = c s
    /\ (forall ctx key, Get s' ctx key w1 = Panic w1)
    /\ Disconnect s' w1 = Panic w1
    /\ exists s2 err w2, Init s' w1 = Done (s2, err) w2 /\ client s2 <> None.
Proof.
  intros Hcl Httl Hclose.
  eexists _, _. split.
  - unfold Disconnect, bind, call_Close. rewrite Hcl. cbn [deref ret].
    rewrite Hclose. cbn [isErr]. unfold InfoT, emit. reflexivity.
  - cbn [remote client c]. repeat split.
    pose proof (Init_run {| c := c s; client := None; traceName := traceName s |}
                         {| remote := cs;
                            trace := trace w ++
                              [EvLog InfoLevel (traceName s)
                                     "Successfully disconnected to redis" []] |}
                         Httl) as Hrun.
    cbv zeta in Hrun. eexists _, _, _. split; [exact Hrun|].
    cbn [client]. discriminate.
Qed.

(** X9: when the client fails to close, [Disconnect] returns that error,
    logs it once and keeps the client: the service is as before, and [Get]
    on it still calls the client, once, and returns what [Get] makes of the
    client's answer.  Whether that call reaches the store is the client's
    affair. *)
Theorem Disconnect_failure_keeps_the_client s (w : World Err CS) cl e cs :
  client s = Some cl ->
  client_Close cl (remote w) = (Some e, cs) ->
  exists w1,
    Disconnect s w = Done (s, Some e) w1
    /\ remote w1 = cs
    /\ error_lines (trace w1) =
         error_lines (trace w)
         ++ [("Failed to disconnect from redis", [ArgError (Some e)])]
    /\ forall ctx key, exists r tr cs',
         Get s ctx key w1 = Done r {| remote := cs'; trace := trace w1 ++ tr |}
         /\ commands tr = [EvGet cl ctx key (fst (client_Get cl ctx key cs))].
Proof.
  intros Hcl Hclose.
  eexists. split.
  - unfold Disconnect, bind, call_Close. rewrite Hcl. cbn [deref ret].
    rewrite Hclose. cbn [isErr]. unfold ErrorT, emit. reflexivity.
  - cbn [remote trace]. repeat split.
    + now rewrite error_lines_app.
    + intros ctx key.
      destruct (client_Get cl ctx key cs) as [[v err] cs'] eqn:Hget.
      match goal with
      | |- exists _ _ _, Get _ _ _ ?w1 = _ /\ _ =>
          destruct (Get_live_returns s ctx key w1 cl v err cs' Hcl Hget)
            as (r & tr & HGet & Hcmd)
      end.
      exists r, tr, cs'. split; [exact HGet | exact Hcmd].
Qed.

(** X10: a string stored by a [Set] that returned nil and handed back by
    the store comes back from [Get] unchanged, with a nil error, and [Set]
    logs nothing.  The empty string makes the one difference: [Get] hands
    it back with a nil error too, yet logs the get as failed. *)
Theorem Set_then_Get s ctx ctx' key v expiration (w : World Err CS) cl cs1 cs2 :
  client s = Some cl ->
  client_Set cl ctx key (AnyString v) expiration (remote w) = (None, cs1) ->
  client_Get cl ctx' key cs1 = ((v, None), cs2) ->
  exists w1 w2,
    Set' s ctx key (AnyString v) expiration w = Done None w1
    /\ trace w1 = trace w
    /\ Get s ctx' key w1 = Done (v, None) w2
    /\ remote w2 = cs2
    /\ (v <> EmptyString -> error_lines (trace w2) = error_lines (trace w))
    /\ (v = EmptyString ->
        exists tr, trace w2 = trace w ++ tr
                   /\ error_lines tr =
                        [("Failed to get key", [ArgString key; ArgError None])]).
Proof.
  intros Hcl Hset Hget.
  assert (HSet : Set' s ctx key (AnyString v) expiration w =
                 Done None {| remote := cs1; trace := trace w |}).
  { unfold Set', bind, call_Set. rewrite Hcl. cbn [deref ret].
    now rewrite Hset. }
  destruct (resolves (v, @None Err)) eqn:Hres.
  - eexists _, _. split; [exact HSet|]. cbn [trace].
    split; [reflexivity|]. split.
    + exact (Get_hit s ctx' key {| remote := cs1; trace := trace w |}
                     Hcl Hget Hres).
    + cbn [remote trace]. repeat split.
      * intros _. rewrite error_lines_app. cbn [error_lines].
        now rewrite app_nil_r.
      * intros ->. discriminate.
  - assert (v = EmptyString) as ->.
    { destruct v; [reflexivity|discriminate]. }
    eexists _, _. split; [exact HSet|]. cbn [trace].
    split; [reflexivity|]. split.
    + exact (Get_miss s ctx' key {| remote := cs1; trace := trace w |}
                      Hcl Hget Hres).
    + cbn [remote trace]. repeat split.
      * intros H. now contradiction H.
      * intros _. eexists. split; reflexivity.
Qed.

(** ** Decoding, continued *)

Context {T : Type} {JC : JSONCodec Err T}.

(** X11: the service [NewService] returns has no client.  Until [Init]
    runs, every call that goes to the store panics on the nil client, before
    any command is sent; [SMembersWithChild] and [JSONSMembersWithChild]
    have logged their first line by then, the others nothing. *)
Theorem calls_before_Init_panic
  c0 name ctx key (v : T) (vs : slice T) value expiration (w : World Err CS) :
  let s := NewService c0 name in
  let logged :=
    {| remote := remote w;
       trace := trace w ++
         [EvLog InfoLevel (traceName s) "Get members child by key "
                [ArgString key]] |} in
  client s = None
  /\ Get s ctx key w = Panic w
  /\ JSONGet s ctx key v w = Panic w
  /\ SMembers s ctx key w = Panic w
  /\ Set' s ctx key value expiration w = Panic w
  /\ Disconnect s w = Panic w
  /\ SMembersWithChild s ctx key w = Panic logged
  /\ JSONSMembersWithChild s ctx key vs w = Panic logged.
Proof.
  intros s logged. repeat (split; [reflexivity|]). reflexivity.
Qed.

Lemma commands_EvUnmarshal (items : list string) :
  commands (map (@EvUnmarshal Err) items) = [].
Proof. induction items as [|i items IH]; [reflexivity | exact IH]. Qed.

Lemma error_lines_EvUnmarshal (items : list string) :
  error_lines (map (@EvUnmarshal Err) items) = [].
Proof. induction items as [|i items IH]; [reflexivity | exact IH]. Qed.

Lemma first_failure_none (items : list string) :
  first_failure items = None <-> forallb decodes items = true.
Proof.
  induction items as [|item rest IH]; cbn [first_failure forallb]; [tauto|].
  unfold decodes in *.
  destruct (snd (json_Unmarshal item zero)) as [e|]; cbn [isErr negb andb].
  - split; intros H; discriminate H.
  - exact IH.
Qed.

Lemma decoded_prefix_all (items : list string) :
  forallb decodes items = true -> decoded_prefix items = map decode items.
Proof.
  induction items as [|item rest IH]; cbn [forallb decoded_prefix map];
    [reflexivity|].
  intros H. apply andb_true_iff in H as [-> Hrest]. now rewrite IH.
Qed.

Lemma append_all_Some (xs : list T) :
  forall l : list T, append_all (Some l) xs = Some (l ++ xs).
Proof.
  unfold append_all.
  induction xs as [|x xs IH]; intros l.
  - cbn [fold_left]. now rewrite app_nil_r.
  - change (fold_left append xs (Some (l ++ [x])) = Some (l ++ x :: xs)).
    rewrite IH. now rewrite <- app_assoc.
Qed.

(** Nothing appended leaves the slice as it is, nil or not; anything
    appended makes it non-nil. *)
Lemma append_all_nil_or_not (sv : slice T) (xs : list T) :
  (xs = [] -> append_all sv xs = sv)
  /\ (xs <> [] -> append_all sv xs = Some (elems sv ++ xs)).
Proof.
  split.
  - now intros ->.
  - destruct xs as [|x xs]; [congruence|]. intros _.
    change (append_all (Some (elems sv ++ [x])) xs
            = Some (elems sv ++ x :: xs)).
    rewrite append_all_Some. now rewrite <- app_assoc.
Qed.

(** X12: [JSONSMembersWithChild] fetches everything before it decodes
    anything.  On a live client it sends the store the commands
    [SMembersWithChild] sends and leaves it in the same state, whatever the
    payloads decode to; when the index fetch succeeded, all it adds to the
    trace of [SMembersWithChild] are the decodes, up to the first that
    fails, and that failure is not logged. *)
Theorem JSONSMembersWithChild_fetches_before_decoding
  s ctx key (v : slice T) (w : World Err CS) cl :
  client s = Some cl ->
  exists r w1 out err tr2,
    SMembersWithChild s ctx key w = Done r w1
    /\ JSONSMembersWithChild s ctx key v w =
         Done (out, err) {| remote := remote w1; trace := trace w1 ++ tr2 |}
    /\ commands tr2 = []
    /\ (snd r = None ->
        tr2 = map EvUnmarshal (attempted (elems (fst r)))
        /\ error_lines tr2 = []).
Proof.
  intros Hcl.
  destruct (client_SMembers cl ctx key (remote w)) as [[members [e|]] cs1] eqn:Hsm.
  - pose proof (SMembersWithChild_fail s ctx key w Hcl Hsm) as Hrun.
    eexists _, _, _, _, _. split; [exact Hrun|]. split.
    + unfold JSONSMembersWithChild. rewrite (bind_Done _ _ _ Hrun). reflexivity.
    + split; [reflexivity|]. discriminate.
  - destruct (SMembersWithChild_fetch s ctx key w Hcl Hsm) as (tr & Hrun & _).
    eexists _, _, _, _, _. split; [exact Hrun|]. split.
    + unfold JSONSMembersWithChild. rewrite (bind_Done _ _ _ Hrun).
      cbn [isErr]. apply JSONSMembersWithChild_loop_run.
    + cbn [fst snd]. split; [apply commands_EvUnmarshal|].
      intros _. split; [reflexivity | apply error_lines_EvUnmarshal].
Qed.

(** X13: when [SMembersWithChild] yields raw values,
    [JSONSMembersWithChild] returns a nil error exactly when every one of
    them decodes; it has then appended the decoded element of each, in
    order, and called the decoder once per value. *)
Theorem JSONSMembersWithChild_nil_iff_all_decode
  s ctx key (v : slice T) (w w1 : World Err CS) raw :
  SMembersWithChild s ctx key w = Done (raw, None) w1 ->
  exists out err w2,
    JSONSMembersWithChild s ctx key v w = Done (out, err) w2
    /\ (err = None <-> forallb decodes (elems raw) = true)
    /\ (err = None ->
        elems out = elems v ++ map decode (elems raw)
        /\ trace w2 = trace w1 ++ map EvUnmarshal (elems raw)).
Proof.
  intros Hrun. eexists _, _, _. split.
  - unfold JSONSMembersWithChild. rewrite (bind_Done _ _ _ Hrun).
    cbn [isErr]. apply JSONSMembersWithChild_loop_run.
  - split; [apply first_failure_none|].
    intros Hnone. apply first_failure_none in Hnone.
    rewrite elems_append_all, (decoded_prefix_all _ Hnone). cbn [trace].
    split; [reflexivity|]. do 2 f_equal.
    clear - Hnone. induction (elems raw) as [|item rest IH]; [reflexivity|].
    cbn [forallb] in Hnone. apply andb_true_iff in Hnone as [Hitem Hrest].
    cbn [attempted]. rewrite Hitem. f_equal. auto.
Qed.

(** X14: when [SMembersWithChild] yields raw values of which none is
    decoded (there are none, or the first fails), the caller's slice is
    handed back as it was, a nil slice still nil; as soon as one is
    decoded the slice is non-nil. *)
Theorem JSONSMembersWithChild_keeps_a_nil_slice
  s ctx key (v : slice T) (w w1 : World Err CS) raw :
  SMembersWithChild s ctx key w = Done (raw, None) w1 ->
  exists out err w2,
    JSONSMembersWithChild s ctx key v w = Done (out, err) w2
    /\ (decoded_prefix (elems raw) = [] -> out = v)
    /\ (decoded_prefix (elems raw) <> [] ->
        out = Some (elems v ++ decoded_prefix (elems raw)))
    /\ (elems raw = [] -> out = v /\ err = None).
Proof.
  intros Hrun. eexists _, _, _. split.
  - unfold JSONSMembersWithChild. rewrite (bind_Done _ _ _ Hrun).
    cbn [isErr]. apply JSONSMembersWithChild_loop_run.
  - destruct (append_all_nil_or_not v (decoded_prefix (elems raw))) as [H0 H1].
    split; [exact H0|]. split; [exact H1|].
    intros Hraw. rewrite Hraw. split; reflexivity.
Qed.

(** X15: [JSONGet] is [Get] followed by the decode.  When [Get] on the
    same store returns an error or the empty string, [JSONGet] returns that
    error, nil in the second case, after the same events and with the
    caller's value untouched; otherwise it decodes the value [Get] returns
    into the caller's value and returns what the decoder returns, without
    logging a decode error. *)
Theorem JSONGet_is_Get_then_Unmarshal
  s ctx key (v : T) (w w1 : World Err CS) result err :
  Get s ctx key w = Done (result, err) w1 ->
  JSONGet s ctx key v w =
    if isErr err || (len result =? 0)%nat
    then Done (v, err) w1
    else Done (json_Unmarshal result v)
              {| remote := remote w1;
                 trace := trace w1 ++ [EvUnmarshal result] |}.
Proof.
  destruct (client s) as [cl|] eqn:Hcl.
  2:{ unfold Get, bind. rewrite Hcl. discriminate. }
  destruct (client_Get cl ctx key (remote w)) as [[r e] cs] eqn:Hget.
  destruct (resolves (r, e)) eqn:Hres.
  - rewrite (Get_hit s ctx key w Hcl Hget Hres).
    destruct (resolves_true _ _ Hres) as [-> Hlen].
    intros H. injection H as <- <- <-. cbn [isErr orb]. rewrite Hlen.
    unfold JSONGet, bind, call_Get. rewrite Hcl. cbn [deref ret].
    rewrite Hget. cbn [isErr orb]. rewrite Hlen.
    unfold call_Unmarshal, bind, emit, ret. cbn [remote trace].
    destruct (json_Unmarshal r v) as [v' [e'|]]; reflexivity.
  - rewrite (Get_miss s ctx key w Hcl Hget Hres).
    intros H. injection H as <- <- <-.
    replace (isErr e || (len EmptyString =? 0)%nat) with true
      by (now rewrite orb_true_r).
    unfold JSONGet, bind, call_Get. rewrite Hcl. cbn [deref ret].
    rewrite Hget, (resolves_false _ _ Hres).
    unfold ErrorT, emit. cbn [remote trace]. now rewrite <- app_assoc.
Qed.

End MoreProperties.


(** * The further properties on the mock stores *)

Module FurtherExamples.
Import Mock MemStore.

(** What the orders store answers to a [GET], whatever it served before. *)
Lemma orders_store_is_stable :
  forall k (cs : nat),
    fst (client_Get handle ctx0 k cs) = fst (client_Get handle ctx0 k 0%nat).
Proof. intros k cs. reflexivity. Qed.

Lemma SMembersWithChild_round_trips_witness :
  exists r tr w',
    SMembersWithChild live ctx0 "idx:orders" world0 = Done r w'
    /\ trace w' = tr
    /\ List.length (commands tr) = 4.
Proof.
  destruct (SMembersWithChild_round_trips
              live ctx0 "idx:orders" world0 handle
              (Some ["o:1"; "o:2"; "o:3"]) 1)
    as (r & tr & w' & Hrun & Htrace & _ & Hlen & _);
    [reflexivity | reflexivity |].
  exists r, tr, w'. split; [exact Hrun|]. split; [exact Htrace | exact Hlen].
Defined.

Lemma SMembersWithChild_two_lines_per_skipped_member_witness :
  exists result (tr : list (Event string)) w',
    SMembersWithChild live ctx0 "idx:orders" world0 = Done (Some result, None) w'
    /\ map fst (gets tr) = ["o:1"; "o:2"; "o:3"]
    /\ error_lines tr = flat_map skip_lines (gets tr)
    /\ List.length (error_lines tr) + 2 * List.length result = 6.
Proof.
  destruct (SMembersWithChild_two_lines_per_skipped_member
              live ctx0 "idx:orders" world0 handle
              (Some ["o:1"; "o:2"; "o:3"]) 1)
    as (result & tr & w' & Hrun & _ & _ & Hkeys & _ & Hlog & Hlen);
    [reflexivity | reflexivity |].
  exists result, tr, w'. split; [exact Hrun|].
  split; [exact Hkeys|]. split; [exact Hlog | exact Hlen].
Defined.

Lemma SMembersWithChild_stable_store_witness :
  exists w',
    SMembersWithChild live ctx0 "idx:orders" world0 =
      Done (Some [payload "1"; payload "3"], None) w'.
Proof.
  destruct (SMembersWithChild_stable_store
              live ctx0 "idx:orders" world0 handle
              (Some ["o:1"; "o:2"; "o:3"]) 1
              (fun k => fst (client_Get handle ctx0 k 0%nat)))
    as (w' & Hrun);
    [reflexivity | reflexivity | exact orders_store_is_stable |].
  exists w'. exact Hrun.
Defined.

Lemma SMembersWithChild_follows_SMembers_witness :
  (exists r (tr : list (Event string)) w2,
     SMembersWithChild live ctx0 "idx:orders" world0 = Done (r, None) w2
     /\ map fst (gets tr) = ["o:1"; "o:2"; "o:3"])
  /\ (exists w2,
        SMembersWithChild live ctx0 "idx:down" world0
          = Done (None, Some "i/o timeout") w2).
Proof.
  split.
  - edestruct (SMembersWithChild_follows_SMembers live ctx0 "idx:orders" world0)
      as (r & tr & w2 & Hrun & _ & _ & Hkeys); [vm_compute; reflexivity|].
    exists r, tr, w2. split; [exact Hrun | exact (Hkeys eq_refl)].
  - edestruct (SMembersWithChild_follows_SMembers live ctx0 "idx:down" world0)
      as (r & tr & w2 & Hrun & _ & Hnil & _); [vm_compute; reflexivity|].
    exists w2. destruct Hnil as (_ & Hr & _); [discriminate|].
    rewrite <- Hr. exact Hrun.
Defined.

Lemma Get_value_only_without_error_witness :
  (exists w', Get live ctx0 "o:1" world0 = Done (payload "1", None) w')
  /\ (exists w', Get live ctx0 "o:7" world0
                 = Done (EmptyString, Some "redis: nil") w').
Proof.
  split.
  - destruct (Get_value_only_without_error
                live ctx0 "o:1" world0 handle (payload "1") None 1)
      as (r & tr & Hrun & _ & _ & Hv & _); [reflexivity | reflexivity |].
    eexists. rewrite <- (Hv eq_refl). exact Hrun.
  - destruct (Get_value_only_without_error
                live ctx0 "o:7" world0 handle EmptyString
                (Some "redis: nil") 1)
      as (r & tr & Hrun & _ & Hr & _); [reflexivity | reflexivity |].
    eexists. destruct r as [|a r]; [exact Hrun|].
    destruct (Hr ltac:(discriminate)) as [_ Habs]. discriminate Habs.
Defined.

Lemma Init_then_Get_reaches_store_witness :
  exists s' err w1 r w2,
    Init fresh world0 = Done (s', err) w1
    /\ Get s' ctx0 "o:1" w1 = Done r w2.
Proof.
  destruct (Init_then_Get_reaches_store fresh ctx0 "o:1" world0 30000000000%Z)
    as (s' & err & w1 & r & tr & cs & HInit & HGet & _); [reflexivity|].
  exists s', err, w1, r. eexists. split; [exact HInit | exact HGet].
Defined.

Lemma Disconnect_drops_the_client_witness :
  exists s' w1,
    Disconnect live MemStore.empty = Done (s', None) w1
    /\ client s' = None
    /\ Get s' ctx0 "greeting" w1 = Panic w1.
Proof.
  destruct (Disconnect_drops_the_client
              live MemStore.empty handle
              {| MemStore.strings := []; MemStore.closed := true |}
              30000000000%Z)
    as (s' & w1 & Hrun & _ & Hnil & _ & HGet & _);
    [reflexivity | reflexivity | reflexivity |].
  exists s', w1. split; [exact Hrun|]. split; [exact Hnil|].
  exact (HGet ctx0 "greeting").
Defined.

Lemma Disconnect_failure_keeps_the_client_witness :
  exists w1,
    Disconnect live MemStore.gone
      = Done (live, Some "redis: client is closed") w1.
Proof.
  destruct (Disconnect_failure_keeps_the_client
              live MemStore.gone handle "redis: client is closed"
              {| MemStore.strings := []; MemStore.closed := true |})
    as (w1 & Hrun & _); [reflexivity | reflexivity |].
  exists w1. exact Hrun.
Defined.

Lemma Set_then_Get_witness :
  exists w1 w2,
    Set' live ctx0 "greeting" (AnyString "hello") 0%Z MemStore.empty
      = Done None w1
    /\ Get live ctx0 "greeting" w1 = Done ("hello", None) w2.
Proof.
  destruct (Set_then_Get
              live ctx0 ctx0 "greeting" "hello" 0%Z MemStore.empty handle
              {| MemStore.strings := [("greeting", "hello")];
                 MemStore.closed := false |}
              {| MemStore.strings := [("greeting", "hello")];
                 MemStore.closed := false |})
    as (w1 & w2 & HSet & _ & HGet & _);
    [reflexivity | reflexivity | reflexivity |].
  exists w1, w2. split; [exact HSet | exact HGet].
Defined.

Lemma JSONSMembersWithChild_fetches_before_decoding_witness :
  exists r w1 out err tr2,
    SMembersWithChild live ctx0 "idx:broken" world0 = Done r w1
    /\ JSONSMembersWithChild live ctx0 "idx:broken" (@None (list Order)) world0
         = Done (out, err) {| remote := remote w1; trace := trace w1 ++ tr2 |}
    /\ commands tr2 = [].
Proof.
  destruct (JSONSMembersWithChild_fetches_before_decoding
              live ctx0 "idx:broken" (@None (list Order)) world0 handle)
    as (r & w1 & out & err & tr2 & Hrun & HJSON & Hcmd & _); [reflexivity|].
  exists r, w1, out, err, tr2.
  split; [exact Hrun|]. split; [exact HJSON | exact Hcmd].
Defined.

Lemma JSONSMembersWithChild_nil_iff_all_decode_witness :
  exists out w2,
    JSONSMembersWithChild live ctx0 "idx:orders" (@None (list Order)) world0
      = Done (out, None) w2
    /\ elems out = [{| id := 1 |}; {| id := 3 |}].
Proof.
  edestruct (JSONSMembersWithChild_nil_iff_all_decode
               live ctx0 "idx:orders" (@None (list Order)) world0)
    as (out & err & w2 & Hrun & Hiff & Hout); [vm_compute; reflexivity|].
  assert (Herr : err = None) by (apply Hiff; reflexivity).
  exists out, w2. split; [rewrite <- Herr; exact Hrun|].
  exact (proj1 (Hout Herr)).
Defined.

Lemma JSONSMembersWithChild_keeps_a_nil_slice_witness :
  exists w2,
    JSONSMembersWithChild live ctx0 "idx:none" (@None (list Order)) world0
      = Done (None, None) w2.
Proof.
  edestruct (JSONSMembersWithChild_keeps_a_nil_slice
               live ctx0 "idx:none" (@None (list Order)) world0)
    as (out & err & w2 & Hrun & _ & _ & Hnone); [vm_compute; reflexivity|].
  destruct (Hnone eq_refl) as [Hout Herr].
  exists w2. rewrite Hout, Herr in Hrun. exact Hrun.
Defined.

Lemma JSONGet_is_Get_then_Unmarshal_witness :
  exists w2,
    JSONGet live ctx0 "o:3" {| id := 0 |} world0 = Done ({| id := 3 |}, None) w2.
Proof.
  eexists.
  erewrite (JSONGet_is_Get_then_Unmarshal live ctx0 "o:3" {| id := 0 |} world0)
    by (vm_compute; reflexivity).
  reflexivity.
Defined.

End FurtherExamples.
